(** * Subset enumeration by backtracking (C++/subsets.cpp)

    A shallow embedding of [generateSubsets] and [main], with the mutable
    vectors of the C++ program kept in an explicit store that is threaded
    through a small state-and-fault monad. *)

From Stdlib Require Import ZArith Lia Ascii.
From stdpp Require Import list strings pretty.

(** ** The store

    [main] owns three vectors and passes them to [generateSubsets] by
    reference; the standard output stream is the fourth piece of state. *)

Record store : Type := Store {
  nums : list Z;            (* vector<int> nums *)
  current : list Z;         (* vector<int> current *)
  result : list (list Z);   (* vector<vector<int>> result *)
  cout : string             (* characters written to std::cout so far *)
}.

Definition set_current (v : list Z) (s : store) : store :=
  Store (nums s) v (result s) (cout s).
Definition set_result (v : list (list Z)) (s : store) : store :=
  Store (nums s) (current s) v (cout s).
Definition set_cout (v : string) (s : store) : store :=
  Store (nums s) (current s) (result s) v.

(** ** Outcomes

    Three operations of the program have undefined behaviour in C++ when
    misused: [operator[]] outside the vector, [pop_back] on an empty
    vector, and [index + 1] on the largest [int].  The embedding makes
    them explicit faults: a run that ends in [Fault] is a run that has
    reached undefined behaviour, and nothing is said about what the
    machine does from there.  [OutOfFuel] is the answer of a run whose
    call stack would need more frames than the fuel allows. *)

Inductive fault : Type :=
  | OutOfBounds (i : Z)
  | PopEmpty
  | SignedOverflow.

Inductive outcome (A : Type) : Type :=
  | Done (a : A) (s : store)
  | Fault (f : fault)
  | OutOfFuel.

Arguments Done {A} a s.
Arguments Fault {A} f.
Arguments OutOfFuel {A}.

Definition M (A : Type) : Type := store -> outcome A.

Definition ret {A} (a : A) : M A := fun s => Done a s.

Definition bind {A B} (m : M A) (k : A -> M B) : M B :=
  fun s =>
    match m s with
    | Done a s' => k a s'
    | Fault f => Fault f
    | OutOfFuel => OutOfFuel
    end.

Declare Scope prog_scope.
Delimit Scope prog_scope with prog.
Notation "x <~ m ;; k" := (bind m (fun x => k))
  (at level 100, m at next level, right associativity) : prog_scope.
Notation "m ;; k" := (bind m (fun _ => k))
  (at level 100, right associativity) : prog_scope.
Open Scope prog_scope.

(** ** Vector and stream primitives *)

(** [nums.size()] *)
Definition nums_size : M Z :=
  fun s => Done (Z.of_nat (length (nums s))) s.

(** [nums[i]]: defined for [0 <= i < nums.size()] only. *)
Definition nums_at (i : Z) : M Z :=
  fun s =>
    if (i <? 0)%Z then Fault (OutOfBounds i)
    else match nums s !! Z.to_nat i with
         | Some x => Done x s
         | None => Fault (OutOfBounds i)
         end.

(** [current.push_back(x)] *)
Definition current_push_back (x : Z) : M unit :=
  fun s => Done tt (set_current (current s ++ [x]) s).

(** [current.pop_back()] *)
Definition current_pop_back : M unit :=
  fun s =>
    match current s with
    | [] => Fault PopEmpty
    | _ :: _ => Done tt (set_current (removelast (current s)) s)
    end.

(** [result.push_back(current)]: the vector is copied, so what is stored
    is the value of [current] at this moment. *)
Definition result_push_back_current : M unit :=
  fun s => Done tt (set_result (result s ++ [current s]) s).

(** [cout << str] *)
Definition cout_write (str : string) : M unit :=
  fun s => Done tt (set_cout (cout s +:+ str) s).

(** A range-based [for] over a vector that the body does not touch. *)
Fixpoint for_each {A} (l : list A) (body : A -> M unit) : M unit :=
  match l with
  | [] => ret tt
  | x :: l' => body x ;; for_each l' body
  end.

(** ** The program *)

(** [void generateSubsets(nums, index, current, result)].

    The three vectors are the ones of the store.  Here the [int] index is
    a [Z] and [index + 1] is the sum in [Z]: this is the function on ideal
    integers, used for the calls from index 0, where the index stays
    between 0 and [nums.size()].  It is exact as long as [nums.size()]
    does not exceed the largest [int] ([generateSubsets_int_exact]);
    [generateSubsets_int] below is the function with the machine index.
    In [index == nums.size()] and in [nums[index]] C++ converts the index
    to the unsigned size type; for an index that is not negative this is
    the identity, and a negative one becomes a value above every vector
    size, so that the test fails and the access is outside the vector,
    which is what [=?] and [nums_at] answer too.

    [fuel] bounds the number of frames on the call stack: every call
    spends one. *)
Fixpoint generateSubsets (fuel : nat) (index : Z) : M unit :=
  match fuel with
  | O => fun _ => OutOfFuel
  | S fuel' =>
      n <~ nums_size ;;
      if (index =? n)%Z then
        result_push_back_current
      else
        generateSubsets fuel' (index + 1)%Z ;;
        x <~ nums_at index ;;
        current_push_back x ;;
        generateSubsets fuel' (index + 1)%Z ;;
        current_pop_back
  end.

Definition newline : string := String "010"%char EmptyString.

(** The three local declarations at the top of [main]. *)
Definition main_locals : M unit :=
  fun s => Done tt (Store [1; 2; 3]%Z [] [] (cout s)).

Definition print_subset (subset : list Z) : M unit :=
  cout_write "{ " ;;
  for_each subset (fun x => cout_write (pretty x) ;; cout_write " ") ;;
  cout_write ("}" +:+ newline).

(** [int main()] *)
Definition main (fuel : nat) : M Z :=
  main_locals ;;
  generateSubsets fuel 0%Z ;;
  cout_write ("All subsets:" +:+ newline) ;;
  fun s =>
    (for_each (result s) print_subset ;;
     ret 0%Z) s.

(** The store in which the process starts: nothing printed yet. *)
Definition boot : store := Store [] [] [] "".

(** A fresh pair of buffers around an input sequence. *)
Definition fresh (input : list Z) : store := Store input [] [] "".

(** ** The machine index

    [index] is an [int], 32 bits wide, and [nums.size()] is of the
    unsigned 64-bit size type. *)

Definition INT_MAX : Z := 2147483647.

(** The conversion of an [int] to the size type, as the comparison
    [index == nums.size()] and the subscript [nums[index]] apply it. *)
Definition to_size_t (i : Z) : Z := (i mod 2 ^ 64)%Z.

(** [index + 1] on [int]: undefined on the largest one. *)
Definition int_succ (i : Z) : M Z :=
  fun s =>
    if (i <? INT_MAX)%Z then Done (i + 1)%Z s else Fault SignedOverflow.

(** [generateSubsets] with its index as the machine has it.  The argument
    [index + 1] is evaluated before each of the two calls. *)
Fixpoint generateSubsets_int (fuel : nat) (index : Z) : M unit :=
  match fuel with
  | O => fun _ => OutOfFuel
  | S fuel' =>
      n <~ nums_size ;;
      if (to_size_t index =? n)%Z then
        result_push_back_current
      else
        i1 <~ int_succ index ;;
        generateSubsets_int fuel' i1 ;;
        x <~ nums_at (to_size_t index) ;;
        current_push_back x ;;
        i2 <~ int_succ index ;;
        generateSubsets_int fuel' i2 ;;
        current_pop_back
  end.

(** A vector of 2^31 zeros: one element more than the largest [int]. *)
Definition long_input : list Z := replicate (Z.to_nat 2147483648) 0%Z.

(** ** The enumeration as a list function

    [subsets l] lists the selections from [l] in the order in which the
    recursion discovers them: all those without the head first, then the
    same ones with the head put in front.  It is the reference against
    which the stateful program is described. *)

Fixpoint subsets (l : list Z) : list (list Z) :=
  match l with
  | [] => [[]]
  | x :: xs => subsets xs ++ ((x ::.) <$> subsets xs)
  end.

(** How often a sequence occurs in a collection of sequences. *)
Definition occurrences (x : list Z) (ls : list (list Z)) : nat :=
  length (filter (x =.) ls).

(** ** The printed text, as specified *)

(** The line for one subset as the interface describes it: an opening
    brace and a space, the elements in decimal separated by single spaces,
    a space and the closing brace.  With no element to print, the one
    space after the opening brace is also the one before the closing
    brace. *)
Definition format_line (subset : list Z) : string :=
  match subset with
  | [] => "{ }"
  | _ :: _ => "{ " +:+ String.concat " " (pretty <$> subset) +:+ " }"
  end.

(** One line per subset, in the order of the collection. *)
Fixpoint subset_lines (rs : list (list Z)) : string :=
  match rs with
  | [] => ""
  | r :: rs' => format_line r +:+ newline +:+ subset_lines rs'
  end.

(** The whole output for a result collection: the header line, then the
    lines of the subsets. *)
Definition expected_output (rs : list (list Z)) : string :=
  "All subsets:" +:+ newline +:+ subset_lines rs.

(** What the inner loop of [main] writes. *)
Fixpoint trail (subset : list Z) : string :=
  match subset with
  | [] => ""
  | x :: r => pretty x +:+ " " +:+ trail r
  end.

(** ** Subsets by number

    [selection k l] keeps the elements of [l] whose position is marked in
    the binary writing of [k]: the last element of [l] answers to bit 0,
    the one before it to bit 1, and so on up to the first element. *)
Fixpoint selection (k : nat) (l : list Z) : list Z :=
  match l with
  | [] => []
  | x :: xs =>
      if Nat.testbit k (length xs) then x :: selection k xs
      else selection k xs
  end.

(** * Properties *)

Section monad_facts.
Context {A B : Type}.

Lemma bind_Done (m : M A) (k : A -> M B) s a s' :
  m s = Done a s' -> bind m k s = k a s'.
Proof. unfold bind. now intros ->. Qed.

Lemma bind_Done_inv (m : M A) (k : A -> M B) s b s2 :
  bind m k s = Done b s2 ->
  exists a s1, m s = Done a s1 /\ k a s1 = Done b s2.
Proof.
  unfold bind. destruct (m s) as [a s1| |] eqn:E; try discriminate.
  intros H. now exists a, s1.
Qed.
End monad_facts.

(** What one call does to the store, when the index is inside the vector
    and the stack is deep enough. *)
Lemma generateSubsets_run (fuel i : nat) (s : store) :
  i <= length (nums s) ->
  length (nums s) - i < fuel ->
  generateSubsets fuel (Z.of_nat i) s =
    Done tt (set_result
               (result s ++ ((current s ++.) <$> subsets (drop i (nums s)))) s).
Proof.
  revert i s. induction fuel as [|fuel IH]; intros i s Hi Hf; [lia|].
  cbn [generateSubsets]. unfold bind at 1, nums_size.
  destruct (Z.eqb_spec (Z.of_nat i) (Z.of_nat (length (nums s)))) as [E|E].
  - apply Nat2Z.inj in E. subst i. rewrite drop_all. cbn.
    unfold result_push_back_current. now rewrite app_nil_r.
  - assert (Hlt : i < length (nums s)) by lia.
    destruct (lookup_lt_is_Some_2 _ _ Hlt) as [x Hx].
    replace (Z.of_nat i + 1)%Z with (Z.of_nat (S i)) by lia.
    rewrite (bind_Done _ _ _ _ _ (IH (S i) s ltac:(lia) ltac:(lia))).
    unfold bind at 1, nums_at. cbn [nums set_result].
    destruct (Z.ltb_spec (Z.of_nat i) 0) as [?|_]; [lia|].
    rewrite Nat2Z.id, Hx.
    unfold bind at 1, current_push_back.
    cbn [current set_result].
    erewrite bind_Done by (apply IH; cbn; lia).
    unfold current_pop_back. cbn [current nums result cout set_current set_result].
    destruct (current s ++ [x]) as [|y l] eqn:El.
    { now destruct (current s). }
    rewrite <- El, removelast_last.
    rewrite (drop_S _ _ _ Hx). cbn [subsets].
    rewrite fmap_app, <- list_fmap_compose, <- app_assoc.
    unfold set_current, set_result. cbn. do 4 f_equal.
    apply list_fmap_ext. intros _ l' _. cbn. now rewrite <- app_assoc.
Qed.

(** ** Facts about the enumeration *)

Section subsets_facts.
Implicit Types (l s : list Z) (x : Z).

Lemma subsets_length l : length (subsets l) = 2 ^ length l.
Proof.
  induction l as [|x xs IH]; [reflexivity|].
  cbn [subsets]. rewrite length_app, length_fmap, IH.
  cbn [length Nat.pow]. lia.
Qed.

Lemma subsets_nil_elem l : [] ∈ subsets l.
Proof.
  induction l as [|x xs IH]; cbn [subsets].
  - apply list_elem_of_singleton. reflexivity.
  - apply elem_of_app. now left.
Qed.

Lemma subsets_sublist l s : s ∈ subsets l -> s `sublist_of` l.
Proof.
  revert s. induction l as [|x xs IH]; intros s; cbn [subsets].
  - rewrite list_elem_of_singleton. intros ->. constructor.
  - rewrite elem_of_app, list_elem_of_fmap.
    intros [Hs | (t & -> & Ht)].
    + apply sublist_cons. now apply IH.
    + apply sublist_skip. now apply IH.
Qed.

Lemma sublist_subsets l s : s `sublist_of` l -> s ∈ subsets l.
Proof.
  induction 1 as [|x s l _ IH|x s l _ IH]; cbn [subsets].
  - apply list_elem_of_singleton. reflexivity.
  - apply elem_of_app. right. now apply list_elem_of_fmap_2.
  - apply elem_of_app. now left.
Qed.

Lemma subsets_elem_length l s : s ∈ subsets l -> length s <= length l.
Proof. intros H. apply sublist_length. now apply subsets_sublist. Qed.

Lemma subsets_NoDup l : NoDup l -> NoDup (subsets l).
Proof.
  induction 1 as [|x xs Hx _ IH]; cbn [subsets].
  - apply NoDup_singleton.
  - apply NoDup_app. split; [exact IH|]. split.
    + intros s Hs (t & -> & _)%list_elem_of_fmap.
      apply Hx, (elem_of_sublist (x :: t)).
      * left.
      * now apply subsets_sublist.
    + apply NoDup_fmap_2; [|exact IH].
      intros a b E. now injection E.
Qed.

Lemma subsets_NoDup_inv l : NoDup (subsets l) -> NoDup l.
Proof.
  induction l as [|x xs IH]; cbn [subsets]; [constructor|].
  rewrite NoDup_app. intros (Hxs & Hdisj & _).
  constructor; [|now apply IH].
  intros Hin. apply (Hdisj [x]).
  - apply sublist_subsets. now apply singleton_sublist_l.
  - apply list_elem_of_fmap_2, subsets_nil_elem.
Qed.

Lemma occurrences_app s ls1 ls2 :
  occurrences s (ls1 ++ ls2) = occurrences s ls1 + occurrences s ls2.
Proof. unfold occurrences. now rewrite filter_app, length_app. Qed.

Lemma occurrences_absent s ls : s ∉ ls -> occurrences s ls = 0.
Proof.
  unfold occurrences. induction ls as [|t ls IH]; [reflexivity|].
  rewrite not_elem_of_cons. intros [Hne Hn].
  rewrite filter_cons_False by exact Hne. now apply IH.
Qed.

Lemma occurrences_cons_fmap x s ls :
  occurrences (x :: s) ((x ::.) <$> ls) = occurrences s ls.
Proof.
  unfold occurrences. induction ls as [|t ls IH]; [reflexivity|].
  cbn [fmap list_fmap]. destruct (decide (s = t)) as [->|Hne].
  - rewrite !filter_cons_True by reflexivity. cbn [length]. now f_equal.
  - rewrite !filter_cons_False; [exact IH|exact Hne|congruence].
Qed.

Lemma occurrences_nil_subsets l : occurrences [] (subsets l) = 1.
Proof.
  induction l as [|x xs IH]; [reflexivity|].
  cbn [subsets]. rewrite occurrences_app, IH, occurrences_absent; [lia|].
  intros (t & E & _)%list_elem_of_fmap. discriminate.
Qed.

Lemma occurrences_full_subsets l : occurrences l (subsets l) = 1.
Proof.
  induction l as [|x xs IH]; [reflexivity|].
  cbn [subsets].
  rewrite occurrences_app, occurrences_cons_fmap, IH, occurrences_absent;
    [lia|].
  intros H%subsets_elem_length. cbn in H. lia.
Qed.
End subsets_facts.

(** ** Facts about the calls *)

(** With too few frames the first branch of the recursion already runs
    out, whatever the store holds. *)
Lemma generateSubsets_short (fuel i : nat) (s : store) :
  i <= length (nums s) ->
  fuel <= length (nums s) - i ->
  generateSubsets fuel (Z.of_nat i) s = OutOfFuel.
Proof.
  revert i s. induction fuel as [|fuel IH]; intros i s Hi Hf; [reflexivity|].
  cbn [generateSubsets]. unfold bind at 1, nums_size.
  destruct (Z.eqb_spec (Z.of_nat i) (Z.of_nat (length (nums s)))) as [E|_];
    [lia|].
  replace (Z.of_nat i + 1)%Z with (Z.of_nat (S i)) by lia.
  unfold bind at 1. now rewrite IH by lia.
Qed.

(** A call at index 0 on empty buffers, with enough frames. *)
Lemma generateSubsets_top (fuel : nat) (input : list Z) (out : string) :
  length input < fuel ->
  generateSubsets fuel 0 (Store input [] [] out) =
    Done tt (Store input [] (subsets input) out).
Proof.
  intros Hf. change 0%Z with (Z.of_nat 0).
  rewrite generateSubsets_run by (cbn; lia).
  unfold set_result. cbn. do 2 f_equal.
  apply (list_fmap_id (subsets input)).
Qed.

(** Whatever a call that returns has done, it has left [nums], [current]
    and [cout] as they were and has only added to [result]. *)
Lemma generateSubsets_frame (fuel : nat) (index : Z) (s s' : store) :
  generateSubsets fuel index s = Done tt s' ->
  nums s' = nums s /\ current s' = current s /\ cout s' = cout s /\
  exists added, result s' = result s ++ added.
Proof.
  revert index s s'. induction fuel as [|fuel IH]; intros index s s';
    [discriminate|].
  cbn [generateSubsets]. unfold bind at 1, nums_size.
  destruct (index =? Z.of_nat (length (nums s)))%Z.
  - unfold result_push_back_current. intros [= <-]. cbn.
    repeat split. now exists [current s].
  - intros ([] & s1 & H1 & H)%bind_Done_inv.
    apply IH in H1 as (Hn1 & Hc1 & Ho1 & a1 & Hr1).
    apply bind_Done_inv in H as (x & s2 & H2 & H).
    assert (s2 = s1) as ->.
    { unfold nums_at in H2. destruct (index <? 0)%Z; [discriminate|].
      destruct (nums s1 !! Z.to_nat index); [|discriminate].
      now injection H2. }
    unfold bind at 1, current_push_back in H.
    apply bind_Done_inv in H as ([] & s3 & H3 & H).
    apply IH in H3 as (Hn3 & Hc3 & Ho3 & a3 & Hr3).
    cbn in Hn3, Hc3, Ho3, Hr3.
    unfold current_pop_back in H. rewrite Hc3 in H.
    destruct (current s1 ++ [x]) as [|y l] eqn:El.
    { now destruct (current s1). }
    rewrite <- El, removelast_last in H. injection H as <-. cbn.
    repeat split; try congruence.
    exists (a1 ++ a3). rewrite Hr3, Hr1. now rewrite app_assoc.
Qed.


(** ** The printed text *)

Section printing.
Implicit Types (a b c : string) (subset : list Z).

Lemma append_assoc a b c : (a +:+ b) +:+ c = a +:+ b +:+ c.
Proof.
  induction a as [|ch a IH]; [reflexivity|].
  change (String ch ((a +:+ b) +:+ c) = String ch (a +:+ b +:+ c)).
  now rewrite IH.
Qed.

Lemma append_nil_r a : a +:+ "" = a.
Proof.
  induction a as [|ch a IH]; [reflexivity|].
  change (String ch (a +:+ "") = String ch a). now rewrite IH.
Qed.

Lemma inner_loop_run subset s :
  for_each subset (fun x => cout_write (pretty x) ;; cout_write " ") s =
    Done tt (set_cout (cout s +:+ trail subset) s).
Proof.
  revert s. induction subset as [|x r IH]; intros s.
  - cbn. unfold ret, set_cout. rewrite append_nil_r. now destruct s.
  - cbn [for_each trail]. unfold bind at 1 2, cout_write at 1 2.
    rewrite IH. unfold set_cout. cbn. now rewrite !append_assoc.
Qed.

Lemma trail_closing subset :
  "{ " +:+ trail subset +:+ "}" = format_line subset.
Proof.
  destruct subset as [|x r]; [reflexivity|].
  unfold format_line. f_equal.
  revert x. induction r as [|y r IH]; intros x.
  - cbn [trail fmap list_fmap String.concat]. now rewrite append_assoc.
  - change (trail (x :: y :: r)) with (pretty x +:+ " " +:+ trail (y :: r)).
    rewrite append_assoc, append_assoc, (IH y).
    cbn [fmap list_fmap String.concat]. now rewrite !append_assoc.
Qed.

Lemma print_subset_run subset s :
  print_subset subset s =
    Done tt (set_cout (cout s +:+ format_line subset +:+ newline) s).
Proof.
  unfold print_subset. unfold bind at 1, cout_write at 1.
  unfold bind at 1. rewrite inner_loop_run.
  unfold cout_write, set_cout. cbn. do 2 f_equal.
  rewrite <- trail_closing. now rewrite !append_assoc.
Qed.

Lemma outer_loop_run (rs : list (list Z)) s :
  for_each rs print_subset s =
    Done tt (set_cout (cout s +:+ subset_lines rs) s).
Proof.
  revert s. induction rs as [|r rs IH]; intros s.
  - cbn. unfold ret, set_cout. rewrite append_nil_r. now destruct s.
  - cbn [for_each subset_lines]. unfold bind at 1.
    rewrite print_subset_run, IH.
    unfold set_cout. cbn [nums current result cout].
    now rewrite !append_assoc.
Qed.
End printing.

(** ** The whole program *)

(** [main] with a stack of at least four frames: the three vectors at the
    end, the text written and the exit status. *)
Lemma main_run (extra : nat) :
  main (4 + extra) boot =
    Done 0%Z (Store [1; 2; 3]%Z [] (subsets [1; 2; 3]%Z)
                (expected_output (subsets [1; 2; 3]%Z))).
Proof.
  unfold main, boot. unfold bind at 1, main_locals. cbn [cout].
  unfold bind at 1. rewrite generateSubsets_top by (cbn; lia).
  unfold bind at 1, cout_write, set_cout. cbn [nums current result cout].
  unfold bind at 1. rewrite outer_loop_run.
  unfold ret, set_cout, expected_output. cbn [nums current result cout].
  now rewrite append_assoc.
Qed.

Example format_line_empty : format_line [] = "{ }".
Proof. reflexivity. Qed.

Example format_line_123 : format_line [1; 2; 3]%Z = "{ 1 2 3 }".
Proof. reflexivity. Qed.

Example format_line_negative : format_line [-7; 10]%Z = "{ -7 10 }".
Proof. reflexivity. Qed.

(** An index below zero is outside the contract of [generateSubsets]: the
    exclude branch still returns, and the access that follows it is out of
    the vector. *)
Example generateSubsets_negative_index :
  generateSubsets 5 (-1) (fresh [1; 2; 3]%Z) = Fault (OutOfBounds (-1)).
Proof. reflexivity. Qed.

(** ** The machine index *)

Lemma bind_cong {A B} (m m' : M A) (k k' : A -> M B) (s : store) :
  m s = m' s ->
  (forall a s1, m' s = Done a s1 -> k a s1 = k' a s1) ->
  bind m k s = bind m' k' s.
Proof.
  unfold bind. intros -> H. destruct (m' s) as [a s1| |]; auto.
Qed.

Lemma to_size_t_small (i : Z) : (0 <= i <= INT_MAX)%Z -> to_size_t i = i.
Proof.
  unfold to_size_t, INT_MAX. intros H. apply Z.mod_small.
  change (2 ^ 64)%Z with 18446744073709551616%Z. lia.
Qed.

Lemma int_succ_run {B} (i : Z) (k : Z -> M B) (s : store) :
  (i < INT_MAX)%Z -> bind (int_succ i) k s = k (i + 1)%Z s.
Proof.
  intros H. unfold bind, int_succ.
  destruct (Z.ltb_spec i INT_MAX) as [_|?]; [reflexivity|lia].
Qed.

Lemma int_succ_overflow {B} (k : Z -> M B) (s : store) :
  bind (int_succ INT_MAX) k s = Fault SignedOverflow.
Proof. reflexivity. Qed.

Lemma nums_at_Done (i x : Z) (s s' : store) :
  nums_at i s = Done x s' -> s' = s.
Proof.
  unfold nums_at. destruct (i <? 0)%Z; [discriminate|].
  destruct (nums s !! Z.to_nat i); [|discriminate]. now intros [= _ <-].
Qed.

(** As long as the vector has no more elements than the largest [int],
    the machine index and the ideal one give the same runs from every
    index inside the vector. *)
Lemma generateSubsets_int_exact (fuel : nat) (index : Z) (s : store) :
  (Z.of_nat (length (nums s)) <= INT_MAX)%Z ->
  (0 <= index <= Z.of_nat (length (nums s)))%Z ->
  generateSubsets_int fuel index s = generateSubsets fuel index s.
Proof.
  revert index s. induction fuel as [|fuel IH]; intros index s Hsz Hi;
    [reflexivity|].
  cbn [generateSubsets_int generateSubsets].
  apply bind_cong; [reflexivity|]. intros n s0 [= <- <-].
  rewrite to_size_t_small by lia.
  destruct (Z.eqb_spec index (Z.of_nat (length (nums s)))) as [_|Hne];
    [reflexivity|].
  rewrite int_succ_run by lia.
  apply bind_cong; [apply IH; lia|]. intros [] s1 H1.
  apply generateSubsets_frame in H1 as (Hn1 & _).
  apply bind_cong; [reflexivity|]. intros x s2 ->%nums_at_Done.
  apply bind_cong; [reflexivity|]. intros [] s3 [= <-].
  rewrite int_succ_run by lia.
  apply bind_cong; [|reflexivity].
  apply IH; cbn [nums set_current]; rewrite Hn1; lia.
Qed.

(** Past the end of the vector the test [index == nums.size()] is not met
    again while the index climbs: the exclude calls go on until the stack
    is used up or the index is the largest [int]. *)
Lemma generateSubsets_int_beyond (fuel : nat) (index : Z) (s : store) :
  (Z.of_nat (length (nums s)) < index <= INT_MAX)%Z ->
  generateSubsets_int fuel index s =
    if decide (index + Z.of_nat fuel <= INT_MAX)%Z
    then OutOfFuel else Fault SignedOverflow.
Proof.
  revert index. induction fuel as [|fuel IH]; intros index Hi.
  - now rewrite decide_True by lia.
  - cbn [generateSubsets_int]. unfold bind at 1, nums_size.
    rewrite to_size_t_small by lia.
    destruct (Z.eqb_spec index (Z.of_nat (length (nums s)))) as [?|_]; [lia|].
    destruct (Z.eq_dec index INT_MAX) as [->|Hne].
    + rewrite int_succ_overflow. now rewrite decide_False by lia.
    + rewrite int_succ_run by lia. unfold bind at 1. rewrite IH by lia.
      destruct (decide (index + 1 + Z.of_nat fuel <= INT_MAX)%Z).
      * now rewrite decide_True by lia.
      * now rewrite decide_False by lia.
Qed.

Lemma long_input_length : Z.of_nat (length long_input) = 2147483648%Z.
Proof. unfold long_input. rewrite length_replicate. lia. Qed.

(** * The claims *)

(** C1. For every input sequence of length n, the call of generateSubsets
    at index 0 on an empty path buffer and an empty result collection
    returns with a result collection of exactly 2^n subsets; for the empty
    input the collection is the one-element collection holding the empty
    subset. *)
Theorem generateSubsets_count :
  (forall (input : list Z) (extra : nat),
     exists r,
       generateSubsets (S (length input + extra)) 0 (fresh input) =
         Done tt (Store input [] r "") /\
       length r = 2 ^ length input) /\
  (forall extra : nat,
     generateSubsets (S extra) 0 (fresh []) = Done tt (Store [] [] [[]] "")).
Proof.
  split.
  - intros input extra. exists (subsets input). split.
    + apply generateSubsets_top. lia.
    + apply subsets_length.
  - intros extra. unfold fresh.
    now rewrite generateSubsets_top by (cbn; lia).
Qed.

(** C2. For the input {1,2,3} the result collection is, in this order,
    {}, {3}, {2}, {2,3}, {1}, {1,3}, {1,2}, {1,2,3}: at every index the
    branch without the element is explored before the branch with it.
    This is also the collection [main] builds. *)
Theorem generateSubsets_order_123 (extra : nat) :
  generateSubsets (4 + extra) 0 (fresh [1; 2; 3]%Z) =
    Done tt (Store [1; 2; 3]%Z []
               [[]; [3]; [2]; [2; 3]; [1]; [1; 3]; [1; 2]; [1; 2; 3]]%Z "") /\
  exists out,
    main (4 + extra) boot =
      Done 0%Z (Store [1; 2; 3]%Z []
                  [[]; [3]; [2]; [2; 3]; [1]; [1; 3]; [1; 2]; [1; 2; 3]]%Z out).
Proof.
  split.
  - unfold fresh. now rewrite generateSubsets_top by (cbn; lia).
  - eexists. rewrite main_run. reflexivity.
Qed.

(** C3. For every input sequence, every subset in the result collection of
    the call at index 0 on empty buffers is a sub-sequence of the input:
    each of its elements occurs in the input, and the elements keep the
    relative order they have in the input. *)
Theorem generateSubsets_subsequences (input : list Z) (extra : nat) :
  exists r,
    generateSubsets (S (length input + extra)) 0 (fresh input) =
      Done tt (Store input [] r "") /\
    forall s, s ∈ r ->
      s `sublist_of` input /\ forall x, x ∈ s -> x ∈ input.
Proof.
  exists (subsets input). split.
  - apply generateSubsets_top. lia.
  - intros s Hs. apply subsets_sublist in Hs. split; [exact Hs|].
    intros x Hx. exact (elem_of_sublist _ _ _ Hx Hs).
Qed.

(** C4, as stated, fails: on the input {1,1} the result collection holds
    the sequence {1} twice, once for each position it can be taken from. *)
Lemma generateSubsets_repeated_input :
  generateSubsets 3 0 (fresh [1; 1]%Z) =
    Done tt (Store [1; 1]%Z [] [[]; [1]; [1]; [1; 1]]%Z "") /\
  ~ NoDup [[]; [1]; [1]; [1; 1]]%Z.
Proof.
  split; [reflexivity|].
  intros H. apply NoDup_cons_1_2, NoDup_cons_1_1 in H.
  apply H. left.
Qed.

(** C4, amended. For every input sequence without repeated elements, the
    subsets in the result collection of the call at index 0 on empty
    buffers are pairwise distinct as integer sequences. *)
Theorem generateSubsets_distinct (input : list Z) (extra : nat) :
  NoDup input ->
  exists r,
    generateSubsets (S (length input + extra)) 0 (fresh input) =
      Done tt (Store input [] r "") /\
    NoDup r.
Proof.
  intros Hnd. exists (subsets input). split.
  - apply generateSubsets_top. lia.
  - now apply subsets_NoDup.
Qed.

Lemma generateSubsets_distinct_123 :
  NoDup [1; 2; 3]%Z /\
  exists r,
    generateSubsets 4 0 (fresh [1; 2; 3]%Z) =
      Done tt (Store [1; 2; 3]%Z [] r "") /\
    NoDup r.
Proof.
  assert (H : NoDup [1; 2; 3]%Z) by (apply (bool_decide_unpack _); vm_compute; exact I).
  split; [exact H|].
  exact (generateSubsets_distinct [1; 2; 3]%Z 0 H).
Defined.

(** C5. For every input sequence, the empty sequence and the input
    sequence itself each occur exactly once in the result collection of
    the call at index 0 on empty buffers. *)
Theorem generateSubsets_empty_and_full_once (input : list Z) (extra : nat) :
  exists r,
    generateSubsets (S (length input + extra)) 0 (fresh input) =
      Done tt (Store input [] r "") /\
    occurrences [] r = 1 /\
    occurrences input r = 1.
Proof.
  exists (subsets input). split; [|split].
  - apply generateSubsets_top. lia.
  - apply occurrences_nil_subsets.
  - apply occurrences_full_subsets.
Qed.

(** C6. Every call of generateSubsets that returns has put the path buffer
    back to exactly what it held when the call began, has left the input
    and the output stream alone, and has only appended to the result
    collection; and the top-level call, started on an empty path buffer,
    returns with the path buffer empty. *)
Theorem generateSubsets_restores_current :
  (forall (fuel : nat) (index : Z) (s s' : store),
     generateSubsets fuel index s = Done tt s' ->
     current s' = current s /\
     nums s' = nums s /\
     cout s' = cout s /\
     exists added, result s' = result s ++ added) /\
  (forall (input : list Z) (extra : nat) (r0 : list (list Z)) (out : string),
     exists r,
       generateSubsets (S (length input + extra)) 0 (Store input [] r0 out) =
         Done tt (Store input [] r out)).
Proof.
  split.
  - intros fuel index s s' H.
    apply generateSubsets_frame in H as (Hn & Hc & Ho & Hr). tauto.
  - intros input extra r0 out. change 0%Z with (Z.of_nat 0).
    rewrite generateSubsets_run by (cbn; lia). eexists. reflexivity.
Qed.

Lemma generateSubsets_restores_current_mid :
  generateSubsets 2 2 (Store [1; 2; 3]%Z [1; 2]%Z [[7]]%Z "x") =
    Done tt (Store [1; 2; 3]%Z [1; 2]%Z [[7]; [1; 2]; [1; 2; 3]]%Z "x") /\
  current (Store [1; 2; 3]%Z [1; 2]%Z [[7]; [1; 2]; [1; 2; 3]]%Z "x") =
    [1; 2]%Z.
Proof.
  split; [reflexivity|].
  exact (proj1 (proj1 generateSubsets_restores_current 2 2%Z
                  (Store [1; 2; 3]%Z [1; 2]%Z [[7]]%Z "x") _ eq_refl)).
Defined.

(** C7. The standard output of the program is the header line
    "All subsets:" followed by one line per subset of the result
    collection, in the order of the collection, each of the form
    [{ e1 e2 ... en }]; the program ends with status 0. *)
Theorem main_stdout (extra : nat) :
  exists s',
    main (4 + extra) boot = Done 0%Z s' /\
    cout s' = expected_output (result s') /\
    cout s' = "All subsets:
{ }
{ 3 }
{ 2 }
{ 2 3 }
{ 1 }
{ 1 3 }
{ 1 2 }
{ 1 2 3 }
".
Proof.
  eexists. split; [apply main_run|]. split; reflexivity.
Qed.

(** C8, as stated, fails: [index] is an [int].  On a vector of 2^31
    elements the largest [int] is a starting index between 0 and n, and
    the call there does not return with any stack: the test
    [index == nums.size()] fails and [index + 1] is undefined. *)
Lemma generateSubsets_int_no_return :
  (0 <= INT_MAX <= Z.of_nat (length (nums (fresh long_input))))%Z /\
  (forall fuel,
     generateSubsets_int (S fuel) INT_MAX (fresh long_input) =
       Fault SignedOverflow) /\
  (forall fuel,
     ~ exists s', generateSubsets_int fuel INT_MAX (fresh long_input) =
                    Done tt s').
Proof.
  assert (Hlen : Z.of_nat (length (nums (fresh long_input))) = 2147483648%Z)
    by apply long_input_length.
  assert (Hf : forall fuel,
             generateSubsets_int (S fuel) INT_MAX (fresh long_input) =
               Fault SignedOverflow).
  { intros fuel. cbn [generateSubsets_int]. unfold bind at 1, nums_size.
    rewrite Hlen, to_size_t_small by (unfold INT_MAX; lia).
    destruct (Z.eqb_spec INT_MAX 2147483648) as [E|_]; [discriminate E|].
    apply int_succ_overflow. }
  split; [rewrite Hlen; unfold INT_MAX; lia|]. split; [exact Hf|].
  intros [|fuel] [s' H]; [discriminate H|].
  rewrite Hf in H. discriminate H.
Qed.

(** C8, amended. generateSubsets terminates for every input sequence of
    length n not above the largest [int] and every starting index between
    0 and n: a call at [index] returns as soon as the stack may hold more
    than n - index frames, and with n - index frames or fewer it cannot
    finish; so the calls nest exactly n - index deep below the first one,
    which is n from index 0. *)
Theorem generateSubsets_terminates (s : store) (index : Z) :
  (Z.of_nat (length (nums s)) <= INT_MAX)%Z ->
  (0 <= index <= Z.of_nat (length (nums s)))%Z ->
  (forall fuel,
     Z.to_nat (Z.of_nat (length (nums s)) - index) < fuel ->
     exists s', generateSubsets_int fuel index s = Done tt s') /\
  (forall fuel,
     fuel <= Z.to_nat (Z.of_nat (length (nums s)) - index) ->
     generateSubsets_int fuel index s = OutOfFuel).
Proof.
  intros Hsz [H0 Hn].
  split; intros fuel Hf; rewrite generateSubsets_int_exact by lia;
    rewrite <- (Z2Nat.id index H0).
  - rewrite generateSubsets_run by lia. eexists. reflexivity.
  - apply generateSubsets_short; lia.
Qed.

Lemma generateSubsets_terminates_123 :
  (Z.of_nat (length (nums (fresh [1; 2; 3]%Z))) <= INT_MAX)%Z /\
  (0 <= 0 <= Z.of_nat (length (nums (fresh [1; 2; 3]%Z))))%Z /\
  (exists s', generateSubsets_int 4 0 (fresh [1; 2; 3]%Z) = Done tt s') /\
  generateSubsets_int 3 0 (fresh [1; 2; 3]%Z) = OutOfFuel.
Proof.
  assert (Hs : (Z.of_nat (length (nums (fresh [1; 2; 3]%Z))) <= INT_MAX)%Z)
    by (cbn; unfold INT_MAX; lia).
  assert (H : (0 <= 0 <= Z.of_nat (length (nums (fresh [1; 2; 3]%Z))))%Z)
    by (cbn; lia).
  split; [exact Hs|]. split; [exact H|].
  destruct (generateSubsets_terminates (fresh [1; 2; 3]%Z) 0 Hs H)
    as [Hd Ho].
  split.
  - apply (Hd 4). cbn. lia.
  - apply (Ho 3). cbn. lia.
Defined.



(** C10. Two runs of generateSubsets on the same input sequence, each from
    index 0 on a fresh empty path buffer and a fresh empty result
    collection, return the same result collection, subset for subset in
    the same order, whatever else the two runs differ in (what is already
    on the output stream, how much stack is to spare). *)
Theorem generateSubsets_deterministic
    (input : list Z) (extra1 extra2 : nat) (out1 out2 : string) :
  exists r,
    generateSubsets (S (length input + extra1)) 0 (Store input [] [] out1) =
      Done tt (Store input [] r out1) /\
    generateSubsets (S (length input + extra2)) 0 (Store input [] [] out2) =
      Done tt (Store input [] r out2).
Proof.
  exists (subsets input). split; apply generateSubsets_top; lia.
Qed.

(** * Further properties of the calls *)

(** ** More on the enumeration *)

Lemma subsets_head (l : list Z) : head (subsets l) = Some [].
Proof.
  induction l as [|x xs IH]; [reflexivity|].
  cbn [subsets]. destruct (subsets xs); [discriminate|exact IH].
Qed.

Lemma subsets_last (l : list Z) : last (subsets l) = Some l.
Proof.
  induction l as [|x xs IH]; [reflexivity|].
  cbn [subsets]. rewrite last_app, fmap_last, IH. reflexivity.
Qed.

Lemma subsets_total_length (l : list Z) :
  2 * sum_list (length <$> subsets l) = length l * 2 ^ length l.
Proof.
  induction l as [|x xs IH]; [reflexivity|].
  cbn [subsets]. rewrite fmap_app, sum_list_with_app.
  fold (sum_list (length <$> subsets xs)).
  fold (sum_list (length <$> ((x ::.) <$> subsets xs))).
  assert (E : sum_list (length <$> ((x ::.) <$> subsets xs)) =
              sum_list (length <$> subsets xs) + length (subsets xs)).
  { clear IH. induction (subsets xs) as [|t ts IHt]; [reflexivity|].
    cbn in *. lia. }
  rewrite E, subsets_length. cbn [length Nat.pow]. lia.
Qed.

Lemma selection_low_bits (k k' : nat) (l : list Z) :
  (forall j, j < length l -> Nat.testbit k j = Nat.testbit k' j) ->
  selection k l = selection k' l.
Proof.
  induction l as [|x xs IH]; intros H; [reflexivity|].
  cbn [selection]. rewrite (H (length xs)) by (cbn; lia).
  rewrite IH; [reflexivity|]. intros j Hj. apply H. cbn. lia.
Qed.

Lemma subsets_lookup (l : list Z) (k : nat) :
  k < 2 ^ length l -> subsets l !! k = Some (selection k l).
Proof.
  revert k. induction l as [|x xs IH]; intros k Hk.
  - cbn in Hk. now replace k with 0 by lia.
  - cbn [subsets selection]. cbn [length Nat.pow] in Hk.
    pose proof (subsets_length xs) as Hlen.
    assert (Hpos : 0 < 2 ^ length xs)
      by (apply Nat.neq_0_lt_0, Nat.pow_nonzero; lia).
    destruct (Nat.lt_ge_cases k (2 ^ length xs)) as [Hlow|Hhigh].
    + rewrite lookup_app_l by lia.
      assert (Nat.testbit k (length xs) = false) as ->.
      { apply Nat.testbit_false. now rewrite Nat.div_small. }
      now apply IH.
    + rewrite lookup_app_r by lia. rewrite Hlen, list_lookup_fmap.
      rewrite IH by lia. cbn.
      assert (Nat.testbit k (length xs) = true) as ->.
      { apply Nat.testbit_true.
        replace (k `div` 2 ^ length xs) with 1; [reflexivity|].
        apply Nat.div_unique with (r := k - 2 ^ length xs); lia. }
      do 2 f_equal. apply selection_low_bits. intros j Hj.
      rewrite <- (Nat.mod_pow2_bits_low k (length xs) j Hj). f_equal.
      apply Nat.mod_unique with (q := 1); lia.
Qed.

(** * Further theorems *)

(** X1. The result collection of the top-level call holds exactly the
    sub-sequences of the input: a sequence is in it if and only if it can
    be obtained from the input by leaving elements out. *)
Theorem generateSubsets_complete (input : list Z) (extra : nat) :
  exists r,
    generateSubsets (S (length input + extra)) 0 (fresh input) =
      Done tt (Store input [] r "") /\
    forall s, s ∈ r <-> s `sublist_of` input.
Proof.
  exists (subsets input). split.
  - apply generateSubsets_top. lia.
  - intros s. split; [apply subsets_sublist | apply sublist_subsets].
Qed.

(** X2. A call at any index inside a vector of no more elements than the
    largest [int], on any store, with enough stack: it appends to the
    result collection, behind what is already there, the path buffer
    extended by each selection from the elements at [index] and after, in
    enumeration order, and changes nothing else. *)
Theorem generateSubsets_from_index (fuel : nat) (index : Z) (s : store) :
  (Z.of_nat (length (nums s)) <= INT_MAX)%Z ->
  (0 <= index <= Z.of_nat (length (nums s)))%Z ->
  (Z.of_nat (length (nums s)) - index < Z.of_nat fuel)%Z ->
  generateSubsets_int fuel index s =
    Done tt (Store (nums s) (current s)
               (result s ++
                ((current s ++.) <$> subsets (drop (Z.to_nat index) (nums s))))
               (cout s)).
Proof.
  intros Hsz [H0 Hn] Hf. rewrite generateSubsets_int_exact by lia.
  rewrite <- (Z2Nat.id index H0) at 1.
  now rewrite generateSubsets_run by lia.
Qed.

Lemma generateSubsets_from_index_1 :
  (Z.of_nat (length [4; 5; 6]%Z) <= INT_MAX)%Z /\
  (0 <= 1 <= Z.of_nat (length [4; 5; 6]%Z))%Z /\
  (Z.of_nat (length [4; 5; 6]%Z) - 1 < Z.of_nat 3)%Z /\
  generateSubsets_int 3 1 (Store [4; 5; 6]%Z [9]%Z [[0]]%Z "a") =
    Done tt (Store [4; 5; 6]%Z [9]%Z
               [[0]; [9]; [9; 6]; [9; 5]; [9; 5; 6]]%Z "a").
Proof.
  assert (H0 : (Z.of_nat (length [4; 5; 6]%Z) <= INT_MAX)%Z)
    by (cbn; unfold INT_MAX; lia).
  assert (H1 : (0 <= 1 <= Z.of_nat (length [4; 5; 6]%Z))%Z) by (cbn; lia).
  assert (H2 : (Z.of_nat (length [4; 5; 6]%Z) - 1 < Z.of_nat 3)%Z)
    by (cbn; lia).
  split; [exact H0|]. split; [exact H1|]. split; [exact H2|].
  exact (generateSubsets_from_index 3 1
           (Store [4; 5; 6]%Z [9]%Z [[0]]%Z "a") H0 H1 H2).
Defined.

(** X5. A call at an index above nums.size() does not meet the base case
    while the index climbs through the [int] range: as long as index plus
    the number of frames allowed does not pass the largest [int], the
    chain of exclude calls uses up the stack; with more stack it arrives
    at index + 1 on the largest [int], which is undefined. *)
Theorem generateSubsets_above_size (fuel : nat) (index : Z) (s : store) :
  (Z.of_nat (length (nums s)) < index <= INT_MAX)%Z ->
  ((index + Z.of_nat fuel <= INT_MAX)%Z ->
   generateSubsets_int fuel index s = OutOfFuel) /\
  ((INT_MAX < index + Z.of_nat fuel)%Z ->
   generateSubsets_int fuel index s = Fault SignedOverflow).
Proof.
  intros Hi. rewrite generateSubsets_int_beyond by exact Hi.
  split; intros H; [now rewrite decide_True | now rewrite decide_False by lia].
Qed.

Lemma generateSubsets_above_size_4 :
  (Z.of_nat (length (nums (fresh [1; 2; 3]%Z))) < 4 <= INT_MAX)%Z /\
  (4 + Z.of_nat 50 <= INT_MAX)%Z /\
  generateSubsets_int 50 4 (fresh [1; 2; 3]%Z) = OutOfFuel.
Proof.
  assert (H : (Z.of_nat (length (nums (fresh [1; 2; 3]%Z))) < 4 <= INT_MAX)%Z)
    by (cbn; unfold INT_MAX; lia).
  assert (Hf : (4 + Z.of_nat 50 <= INT_MAX)%Z) by (unfold INT_MAX; lia).
  split; [exact H|]. split; [exact Hf|].
  exact (proj1 (generateSubsets_above_size 50 4 (fresh [1; 2; 3]%Z) H) Hf).
Defined.

(** X6. The place of every subset in the result collection: for k below
    2^n, entry number k (counted from 0) is the selection of the input
    elements marked by the binary digits of k, the first element of the
    input answering to the highest of the n digits and the last one to the
    lowest. *)
Theorem generateSubsets_kth (input : list Z) (extra k : nat) :
  k < 2 ^ length input ->
  exists r,
    generateSubsets (S (length input + extra)) 0 (fresh input) =
      Done tt (Store input [] r "") /\
    r !! k = Some (selection k input).
Proof.
  intros Hk. exists (subsets input). split.
  - apply generateSubsets_top. lia.
  - now apply subsets_lookup.
Qed.

Lemma generateSubsets_kth_5 :
  5 < 2 ^ length [10; 20; 30]%Z /\
  selection 5 [10; 20; 30]%Z = [10; 30]%Z /\
  exists r,
    generateSubsets 4 0 (fresh [10; 20; 30]%Z) =
      Done tt (Store [10; 20; 30]%Z [] r "") /\
    r !! 5 = Some (selection 5 [10; 20; 30]%Z).
Proof.
  assert (H : 5 < 2 ^ length [10; 20; 30]%Z) by (cbn; lia).
  split; [exact H|]. split; [reflexivity|].
  exact (generateSubsets_kth [10; 20; 30]%Z 0 5 H).
Defined.

(** X7. Whatever the input, the first subset of the result collection is
    the empty one and the last is the whole input. *)
Theorem generateSubsets_first_last (input : list Z) (extra : nat) :
  exists r,
    generateSubsets (S (length input + extra)) 0 (fresh input) =
      Done tt (Store input [] r "") /\
    head r = Some [] /\
    last r = Some input.
Proof.
  exists (subsets input). split; [|split].
  - apply generateSubsets_top. lia.
  - apply subsets_head.
  - apply subsets_last.
Qed.

(** X8. The result collection for an input x, x1, ..., xm is the result
    collection for x1, ..., xm followed by the same subsets with x put in
    front of each. *)
Theorem generateSubsets_cons (x : Z) (xs : list Z) (extra : nat) :
  exists h,
    generateSubsets (S (length xs + extra)) 0 (fresh xs) =
      Done tt (Store xs [] h "") /\
    generateSubsets (S (length (x :: xs) + extra)) 0 (fresh (x :: xs)) =
      Done tt (Store (x :: xs) [] (h ++ ((x ::.) <$> h)) "").
Proof.
  exists (subsets xs). split; apply generateSubsets_top; lia.
Qed.

(** X9. An input with a repeated element gives a result collection with a
    repeated subset: nothing removes duplicates. *)
Theorem generateSubsets_repeats (input : list Z) (extra : nat) :
  ~ NoDup input ->
  exists r,
    generateSubsets (S (length input + extra)) 0 (fresh input) =
      Done tt (Store input [] r "") /\
    ~ NoDup r.
Proof.
  intros Hd. exists (subsets input). split.
  - apply generateSubsets_top. lia.
  - intros H. apply Hd. now apply subsets_NoDup_inv.
Qed.

Lemma generateSubsets_repeats_252 :
  ~ NoDup [2; 5; 2]%Z /\
  exists r,
    generateSubsets 4 0 (fresh [2; 5; 2]%Z) =
      Done tt (Store [2; 5; 2]%Z [] r "") /\
    ~ NoDup r.
Proof.
  assert (H : ~ NoDup [2; 5; 2]%Z).
  { intros H. apply NoDup_cons_1_1 in H. apply H. right. left. }
  split; [exact H|].
  exact (generateSubsets_repeats [2; 5; 2]%Z 0 H).
Defined.

(** X10. The subsets of the result collection hold n * 2^(n-1) integers
    between them: twice the sum of their lengths is n * 2^n. *)
Theorem generateSubsets_total_size (input : list Z) (extra : nat) :
  exists r,
    generateSubsets (S (length input + extra)) 0 (fresh input) =
      Done tt (Store input [] r "") /\
    2 * sum_list (length <$> r) = length input * 2 ^ length input.
Proof.
  exists (subsets input). split.
  - apply generateSubsets_top. lia.
  - apply subsets_total_length.
Qed.

(** X11. The print loop of main, on any collection of subsets and any
    store: it appends to the output one line [{ e1 e2 ... en }] per
    subset, in the order of the collection, negative numbers with their
    sign, and leaves the three vectors as they are. *)
Theorem print_loop_output (rs : list (list Z)) (s : store) :
  for_each rs print_subset s =
    Done tt (Store (nums s) (current s) (result s)
               (cout s +:+ subset_lines rs)).
Proof. apply outer_loop_run. Qed.
